(** * Text clean-up by fingerprint keys: a model of [homework/clean_data.py]

    The program reads a table with a [raw_text] column, derives for every
    row a fingerprint [key] (strip, lowercase, delete hyphens and
    punctuation, split, stem, deduplicate, sort, join), picks one
    [raw_text] per key and writes it to every row of that key as
    [cleaned_text].

    Conventions of the model.
    - A Python [str] is a [string]; a character is read as the code point
      given by its eight bits, so the model covers texts over code points
      0..255.  [isspace] and [lower_char] follow Python on that range.
    - The stemmer ([nltk.PorterStemmer().stem]) is a library outside the
      program: it is a parameter [stem] of every definition that uses it.
    - A pandas column is a list, a DataFrame a list of rows; a missing
      cell (NaN) is [None]. *)

From Stdlib Require Import Ascii NArith.
From stdpp Require Import gmap strings list sorting.

#[local] Set Warnings "-clear-no-such-hyp".

Local Open Scope N_scope.

(** ** Characters *)

Definition ord (c : ascii) : N := N_of_ascii c.

(** [str.isspace] for one character: TAB, LF, VT, FF, CR, the four
    separators FS, GS, RS, US, the space, NEL and the no-break space. *)
Definition isspace (c : ascii) : bool :=
  let n := ord c in
  ((9 <=? n) && (n <=? 13)) || ((28 <=? n) && (n <=? 32))
  || (n =? 133) || (n =? 160).

(** [str.lower] for one character: the letters A..Z and the accented
    capitals 192..222 (the multiplication sign 215 apart) move up by 32. *)
Definition lower_char (c : ascii) : ascii :=
  let n := ord c in
  if ((65 <=? n) && (n <=? 90))
     || ((192 <=? n) && (n <=? 222) && negb (n =? 215))
  then ascii_of_N (n + 32)
  else c.

Local Close Scope N_scope.

(** ** String methods used by the program *)

Fixpoint str_mem (c : ascii) (s : string) : bool :=
  match s with
  | EmptyString => false
  | String d s' => Ascii.eqb c d || str_mem c s'
  end.

Fixpoint str_all (p : ascii -> bool) (s : string) : bool :=
  match s with
  | EmptyString => true
  | String c s' => p c && str_all p s'
  end.

Fixpoint lstrip (s : string) : string :=
  match s with
  | EmptyString => EmptyString
  | String c s' => if isspace c then lstrip s' else s
  end.

Fixpoint rstrip (s : string) : string :=
  match s with
  | EmptyString => EmptyString
  | String c s' =>
      match rstrip s' with
      | EmptyString => if isspace c then EmptyString else String c EmptyString
      | r => String c r
      end
  end.

(** [s.strip()] *)
Definition strip (s : string) : string := rstrip (lstrip s).

(** [s.lower()] *)
Fixpoint lower (s : string) : string :=
  match s with
  | EmptyString => EmptyString
  | String c s' => String (lower_char c) (lower s')
  end.

(** [s.replace(old, new)] for a pattern [old] of one character, which is
    how the program calls it. *)
Fixpoint replace (old : ascii) (new : string) (s : string) : string :=
  match s with
  | EmptyString => EmptyString
  | String c s' =>
      if Ascii.eqb c old then new +:+ replace old new s'
      else String c (replace old new s')
  end.

(** [str.maketrans(x, y, z)] with [x] and [y] empty: every character of
    [z] is mapped to [None], every other character is left alone. *)
Definition maketrans (z : string) : ascii -> option ascii :=
  fun c => if str_mem c z then None else Some c.

(** [s.translate(table)]: a character mapped to [None] is deleted. *)
Fixpoint translate (table : ascii -> option ascii) (s : string) : string :=
  match s with
  | EmptyString => EmptyString
  | String c s' =>
      match table c with
      | None => translate table s'
      | Some d => String d (translate table s')
      end
  end.

(** [s.split()] with no separator: the maximal runs of characters that
    are not whitespace.  [w] is the word being read. *)
Fixpoint split_from (w : string) (s : string) : list string :=
  match s with
  | EmptyString => match w with EmptyString => [] | _ => [w] end
  | String c s' =>
      if isspace c
      then match w with
           | EmptyString => split_from EmptyString s'
           | _ => w :: split_from EmptyString s'
           end
      else split_from (w +:+ String c EmptyString) s'
  end.

Definition split (s : string) : list string := split_from EmptyString s.

(** [sep.join(l)] *)
Definition join (sep : string) (l : list string) : string :=
  String.concat sep l.

(** [set(x)] and [sorted(s)]: strings compare by code points. *)
Definition set_of (x : list string) : gset string := list_to_set x.

Definition sorted (l : list string) : list string :=
  merge_sort String.le l.

(** The two constants of the program. *)
Definition hyphen : ascii := "-"%char.

(** The argument of [str.maketrans]:
    [!], the double quote (code 34), then [#$%&'()*+,-./:;<=>?@[\]^_`{|}~]. *)
Definition punctuation : string :=
  String "!"%char (String "034"%char "#$%&'()*+,-./:;<=>?@[\]^_`{|}~").

(** ** Data frames

    The frame read by [load_data] is its [raw_text] column.  After
    [create_normalized_key] a row has a [key]; after
    [generate_cleaned_text] it has a [cleaned_text], which is [None] where
    [Series.map] finds no entry (pandas writes NaN there). *)

Record KeyRow := mkKeyRow { raw_text : string; key : string }.

Record CleanRow := mkCleanRow { base :> KeyRow; cleaned_text : option string }.

#[global] Instance KeyRow_eq_dec : EqDecision KeyRow.
Proof. solve_decision. Defined.

#[global] Instance CleanRow_eq_dec : EqDecision CleanRow.
Proof. solve_decision. Defined.

(** The text of a row just before stemming: the value of the [key]
    column after [str.split()]. *)
Definition words (raw : string) : list string :=
  split (translate (maketrans punctuation)
           (replace hyphen "" (lower (strip raw)))).

Section pipeline.

(** [stemmer.stem], the Porter stemmer of nltk. *)
Variable stem : string -> string.

(** [create_normalized_key(df)]: the [key] column is a copy of
    [raw_text], rewritten by one column operation after the other. *)
Definition create_normalized_key (df : list string) : list KeyRow :=
  let key := df in
  let key := strip <$> key in
  let key := lower <$> key in
  let key := replace hyphen "" <$> key in
  let key := translate (maketrans punctuation) <$> key in
  let key := split <$> key in
  let key := (λ x, stem <$> x) <$> key in
  let key := (λ x, sorted (elements (set_of x))) <$> key in
  let key := join " " <$> key in
  zip_with mkKeyRow df key.

End pipeline.

(** [df.sort_values(by=["key", "raw_text"], ascending=[True, True])] *)
Definition row_leb (r1 r2 : KeyRow) : bool :=
  match String.compare (key r1) (key r2) with
  | Lt => true
  | Eq => String.leb (raw_text r1) (raw_text r2)
  | Gt => false
  end.

Definition sort_values (df : list KeyRow) : list KeyRow :=
  merge_sort (λ r1 r2, Is_true (row_leb r1 r2)) df.

(** [df.drop_duplicates(subset="key", keep="first")]: a row stays when no
    earlier row has its key.  [seen] holds the keys of the earlier rows. *)
Fixpoint drop_duplicates_from (seen : gset string) (df : list KeyRow)
  : list KeyRow :=
  match df with
  | [] => []
  | r :: df' =>
      if decide (key r ∈ seen) then drop_duplicates_from seen df'
      else r :: drop_duplicates_from ({[key r]} ∪ seen) df'
  end.

Definition drop_duplicates (df : list KeyRow) : list KeyRow :=
  drop_duplicates_from ∅ df.

(** [dict(pairs)]: the pairs are inserted from left to right, a later
    pair replaces an earlier one with the same key. *)
Definition dict (pairs : list (string * string)) : gmap string string :=
  foldl (λ d kv, <[kv.1 := kv.2]> d) ∅ pairs.

(** The dictionary [key_dict] that [generate_cleaned_text] builds.  The
    sorted copy is bound to [keys] and then [keys] is bound again, to the
    duplicates-free rows of [df] itself. *)
Definition key_dict (df : list KeyRow) : gmap string string :=
  let keys := df in
  let keys := sort_values keys in
  let keys := drop_duplicates df in
  dict (zip (key <$> keys) (raw_text <$> keys)).

(** [generate_cleaned_text(df)]: [df["cleaned_text"] = df["key"].map(key_dict)] *)
Definition generate_cleaned_text (df : list KeyRow) : list CleanRow :=
  let key_dict := key_dict df in
  zip_with mkCleanRow df ((λ k, key_dict !! k) <$> (key <$> df)).

(** ** Output *)

Inductive column := raw_text_col | key_col | cleaned_text_col.

Definition column_name (c : column) : string :=
  match c with
  | raw_text_col => "raw_text"
  | key_col => "key"
  | cleaned_text_col => "cleaned_text"
  end.

Definition cell (r : CleanRow) (c : column) : option string :=
  match c with
  | raw_text_col => Some (raw_text r)
  | key_col => Some (key r)
  | cleaned_text_col => cleaned_text r
  end.

(** What [to_csv(..., index=False)] writes: the header line and one line
    per row, in the order of the rows. *)
Record Table := mkTable { header : list string; body : list (list (option string)) }.

(** A frame restricted to the columns [cols], as in [df[[...]]]. *)
Definition select (cols : list column) (df : list CleanRow) : Table :=
  {| header := column_name <$> cols;
     body := (λ r, cell r <$> cols) <$> df |}.

(** The files of the program: a path is mapped to the table written there. *)
Definition to_csv (t : Table) (path : string) (fs : gmap string Table)
  : gmap string Table :=
  <[path := t]> fs.

(** [save_data(df, output_file)] *)
Definition save_data (df : list CleanRow) (output_file : string)
    (fs : gmap string Table) : gmap string Table :=
  let df := df in
  let df := select [raw_text_col; cleaned_text_col] df in
  to_csv df output_file fs.

(** [main(input_file, output_file)] after [load_data]: [df] is the frame
    read from [input_file], [fs] the files before the call; the result is
    the files after it. *)
Definition main (stem : string -> string) (df : list string)
    (output_file : string) (fs : gmap string Table) : gmap string Table :=
  let df := create_normalized_key stem df in
  let df := generate_cleaned_text df in
  let fs := to_csv (select [raw_text_col; key_col; cleaned_text_col] df)
                   "files/test.csv" fs in
  save_data df output_file fs.

(** The [cleaned_text] column that the pipeline computes for [df]. *)
Definition cleaned (stem : string -> string) (df : list string)
  : list (option string) :=
  cleaned_text <$> generate_cleaned_text (create_normalized_key stem df).

(** ** A stemmer that can raise

    [stemmer.stem(word)] is called inside a list comprehension inside
    [Series.apply], with no [try] around it: an exception raised by the
    stemmer leaves [create_normalized_key].  [None] stands for the raised
    exception, for the stemmer and for the function. *)

Section raising_stemmer.

Variable stem : string -> option string.

Definition create_normalized_key_exc (df : list string)
  : option (list KeyRow) :=
  let key := df in
  let key := strip <$> key in
  let key := lower <$> key in
  let key := replace hyphen "" <$> key in
  let key := translate (maketrans punctuation) <$> key in
  let key := split <$> key in
  key ← mapM (λ x, mapM stem x) key;
  let key := (λ x, sorted (elements (set_of x))) <$> key in
  let key := join " " <$> key in
  Some (zip_with mkKeyRow df key).

End raising_stemmer.

(** ** Stemmers for examples *)

(** A stemmer given by a table: the entries are the stems that the
    program's comment gives. *)
Definition table_stem (w : string) : string :=
  if decide (w = "running") then "run"
  else if decide (w = "runner") then "run"
  else w.

(** ** Keys, representatives, clusters *)

(** The key of a list of stemmed tokens: the last two column operations
    of [create_normalized_key] in one row. *)
Definition key_of_tokens (x : list string) : string :=
  join " " (sorted (elements (set_of x))).

(** The fingerprint of one text: what the column operations compute in
    the row of [raw]. *)
Definition key_of (stem : string -> string) (raw : string) : string :=
  key_of_tokens (stem <$> words raw).

(** A token as [str.split()] returns it, as far as the key needs it: not
    empty and without the space that [join] puts between tokens. *)
Definition is_token (t : string) : bool :=
  negb (String.eqb t "") && negb (str_mem " "%char t).

(** The first row of [df], in the order of [df], whose key is [k]. *)
Definition first_row (k : string) (df : list KeyRow) : option (nat * KeyRow) :=
  list_find (λ r, key r = k) df.

(** The first text of [l] that has the key of [x], keys being taken by
    [K]; and that text, or [x] itself when there is none. *)
Definition rep (K : string -> string) (l : list string) (x : string)
  : option string :=
  snd <$> list_find (λ y, K y = K x) l.

Definition rep_or_self (K : string -> string) (l : list string) (x : string)
  : string :=
  default x (rep K l x).

(** The cluster of a key: the texts of the rows that have it. *)
Definition cluster (df : list KeyRow) (k : string) : list string :=
  raw_text <$> filter (λ r, key r = k) df.

(** [x] is the smallest text of [l] in the order of code points. *)
Definition smallest (x : string) (l : list string) : Prop :=
  x ∈ l ∧ ∀ y, y ∈ l → String.le x y.

(** The order of [sort_values], as a relation. *)
Definition row_le (r1 r2 : KeyRow) : Prop := Is_true (row_leb r1 r2).


(** ** The normalizer as the specification words it

    Trim, lowercase, delete hyphens, delete the punctuation of the
    listed set, split on whitespace runs without empty tokens, stem.
    Deleting is filtering; the tokens are the pieces between whitespace
    characters that are not empty. *)

(** The listed punctuation set: it has no hyphen. *)
Definition punctuation_spec : string :=
  String "!"%char (String "034"%char "#$%&'()*+,./:;<=>?@[\]^_`{|}~").

Fixpoint delete_spec (p : ascii -> bool) (s : string) : string :=
  match s with
  | EmptyString => EmptyString
  | String c s' => if p c then delete_spec p s' else String c (delete_spec p s')
  end.

(** The text up to its last character that is not whitespace. *)
Fixpoint drop_trailing_spec (s : string) : string :=
  match s with
  | EmptyString => EmptyString
  | String c s' =>
      if str_all isspace s then EmptyString
      else String c (drop_trailing_spec s')
  end.

Fixpoint drop_leading_spec (s : string) : string :=
  match s with
  | EmptyString => EmptyString
  | String c s' => if isspace c then drop_leading_spec s' else s
  end.

Definition trim_spec (s : string) : string :=
  drop_trailing_spec (drop_leading_spec s).

Fixpoint lowercase_spec (s : string) : string :=
  match s with
  | EmptyString => EmptyString
  | String c s' => String (lower_char c) (lowercase_spec s')
  end.

(** The pieces of [s] between its whitespace characters, empty ones too. *)
Fixpoint pieces_spec (s : string) : list string :=
  match s with
  | EmptyString => [EmptyString]
  | String c s' =>
      if isspace c then EmptyString :: pieces_spec s'
      else match pieces_spec s' with
           | p :: ps => String c p :: ps
           | [] => [String c EmptyString]
           end
  end.

Definition nonempty (s : string) : bool :=
  match s with EmptyString => false | _ => true end.

Definition tokens_spec (s : string) : list string :=
  filter (λ p, nonempty p) (pieces_spec s).

Definition normalize_spec (stem : string -> string) (raw : string)
  : list string :=
  let s := trim_spec raw in
  let s := lowercase_spec s in
  let s := delete_spec (Ascii.eqb hyphen) s in
  let s := delete_spec (λ c, str_mem c punctuation_spec) s in
  stem <$> tokens_spec s.

(** The key of a token list, [buildKey]: the set of the tokens, sorted
    ascending, joined by one space. *)
Definition buildKey_spec (tokens : list string) : string :=
  join " " (sorted (elements (set_of tokens))).

(** A word as [str.split()] returns it: not empty and without any
    whitespace character. *)
Definition is_word (t : string) : bool :=
  nonempty t && str_all (λ c, negb (isspace c)) t.

(** A character that is whitespace, a hyphen or listed punctuation, and
    a text made of such characters only. *)
Definition is_mark (c : ascii) : bool :=
  isspace c || Ascii.eqb c hyphen || str_mem c punctuation_spec.

Definition only_marks (s : string) : bool := str_all is_mark s.

(** The rows of the first scenario of the specification. *)
Definition scenario1 : list string :=
  ["Running fast!"; "runner-fast"; "  RUNNING FAST  "].

(** The stemmer with the fallback that the specification asks for: a
    token on which [stem] raises stays as it is. *)
Definition fallback (stem : string -> option string) (w : string) : string :=
  default w (stem w).

(** A stemmer that raises on the token [b] and returns any other token. *)
Definition stem_raising_on_b (w : string) : option string :=
  if decide (w = "b") then None else Some w.

(** * Properties *)

(** ** The string methods on examples *)

Example punctuation_length : String.length punctuation = 32.
Proof. reflexivity. Qed.

Example split_example :
  split "  ab  c d " = ["ab"; "c"; "d"].
Proof. reflexivity. Qed.

Example strip_example : strip "  RUNNING FAST  " = "RUNNING FAST".
Proof. reflexivity. Qed.

Example sorted_set_example :
  sorted (elements (set_of ["run"; "fast"; "run"])) = ["fast"; "run"].
Proof. by vm_compute. Qed.

(** The whitespace characters and the characters that [lower] changes,
    by code point. *)
Example isspace_codes :
  filter (λ n, isspace (ascii_of_nat n)) (seq 0 256)
  = [9; 10; 11; 12; 13; 28; 29; 30; 31; 32; 133; 160].
Proof. by vm_compute. Qed.

Example lower_char_codes :
  filter (λ n, nat_of_ascii (lower_char (ascii_of_nat n)) ≠ n) (seq 0 256)
  = seq 65 26 ++ seq 192 23 ++ seq 216 7
  ∧ forallb (λ n, Nat.eqb (nat_of_ascii (lower_char (ascii_of_nat n))) (n + 32))
      (seq 65 26 ++ seq 192 23 ++ seq 216 7) = true.
Proof. split; by vm_compute. Qed.

Example words_example :
  words " E-mail: Hello, World!  " = ["email"; "hello"; "world"].
Proof. reflexivity. Qed.

(** ** Rows and columns *)

Lemma zip_with_fmap_same {A B C} (f : A → B → C) (g : A → B) (l : list A) :
  zip_with f l (g <$> l) = (λ x, f x (g x)) <$> l.
Proof. induction l as [|x l IH]; csimpl; [done | by f_equal]. Qed.

Lemma create_normalized_key_rows stem df :
  create_normalized_key stem df
  = (λ raw, mkKeyRow raw (key_of stem raw)) <$> df.
Proof.
  unfold create_normalized_key; cbv zeta.
  rewrite <- !list_fmap_compose. apply zip_with_fmap_same.
Qed.

Lemma create_normalized_key_raw_text stem df :
  raw_text <$> create_normalized_key stem df = df.
Proof.
  rewrite create_normalized_key_rows, <- list_fmap_compose.
  induction df as [|x df IH]; csimpl; [done | by f_equal].
Qed.

Lemma create_normalized_key_key stem df :
  key <$> create_normalized_key stem df = key_of stem <$> df.
Proof. by rewrite create_normalized_key_rows, <- list_fmap_compose. Qed.

(** ** The dictionary of representatives *)

Lemma foldl_insert_first (df : list KeyRow) :
  ∀ (seen : gset string) (acc : gmap string string) (k : string),
    foldl (λ d kv, <[kv.1 := kv.2]> d) acc
      (zip (key <$> drop_duplicates_from seen df)
           (raw_text <$> drop_duplicates_from seen df)) !! k
    = if decide (k ∈ seen) then acc !! k
      else match first_row k df with
           | Some (_, r) => Some (raw_text r)
           | None => acc !! k
           end.
Proof.
  unfold first_row.
  induction df as [|r df IH]; intros seen acc k; simpl.
  - by destruct (decide (k ∈ seen)).
  - destruct (decide (key r ∈ seen)) as [Hr|Hr].
    + rewrite IH. destruct (decide (k ∈ seen)) as [Hk|Hk]; [done|].
      destruct (decide (key r = k)) as [<-|Hne]; [done|].
      by destruct (list_find _ df) as [[? ?]|].
    + simpl. rewrite IH.
      destruct (decide (k ∈ seen)) as [Hk|Hk].
      * rewrite decide_True by set_solver.
        apply lookup_insert_ne. by intros <-.
      * destruct (decide (key r = k)) as [<-|Hne].
        -- rewrite decide_True by set_solver. apply lookup_insert_eq.
        -- rewrite decide_False by set_solver.
           destruct (list_find _ df) as [[? ?]|]; simpl; [done|].
           by apply lookup_insert_ne.
Qed.

Lemma key_dict_lookup (df : list KeyRow) (k : string) :
  key_dict df !! k = (λ ir, raw_text ir.2) <$> first_row k df.
Proof.
  unfold key_dict, dict, drop_duplicates; cbv zeta.
  rewrite foldl_insert_first, decide_False by set_solver.
  by destruct (first_row k df) as [[? ?]|].
Qed.

Lemma first_row_is_Some (df : list KeyRow) (r : KeyRow) :
  r ∈ df → ∃ i r0, first_row (key r) df = Some (i, r0).
Proof.
  intros Hr.
  destruct (list_find_elem_of (λ r', key r' = key r) df r Hr eq_refl)
    as [[i r0] H].
  by exists i, r0.
Qed.

Lemma generate_cleaned_text_rows (df : list KeyRow) :
  generate_cleaned_text df
  = (λ r, mkCleanRow r (key_dict df !! key r)) <$> df.
Proof.
  unfold generate_cleaned_text; cbv zeta.
  rewrite <- list_fmap_compose. apply zip_with_fmap_same.
Qed.

Lemma drop_duplicates_from_NoDup (df : list KeyRow) :
  ∀ seen : gset string,
    NoDup (key <$> drop_duplicates_from seen df)
    ∧ (∀ r, r ∈ drop_duplicates_from seen df → (key r ∉ seen) ∧ r ∈ df).
Proof.
  induction df as [|r df IH]; intros seen; simpl.
  - split; [constructor | by intros r ?%elem_of_nil].
  - destruct (decide (key r ∈ seen)) as [Hr|Hr].
    + destruct (IH seen) as [Hnd Hin]. split; [done|].
      intros r' Hr'. destruct (Hin r' Hr'). set_solver.
    + destruct (IH ({[key r]} ∪ seen)) as [Hnd Hin]. split.
      * simpl. constructor; [|done].
        intros (r' & Heq & Hr')%list_elem_of_fmap.
        destruct (Hin r' Hr') as [Hns _]. set_solver.
      * intros r' [->|Hr']%elem_of_cons; [set_solver|].
        destruct (Hin r' Hr'). set_solver.
Qed.

(** ** The sorted copy *)

Lemma compare_refl (s : string) : String.compare s s = Eq.
Proof.
  induction s as [|c s IH]; simpl; [done|].
  unfold Ascii.compare. by rewrite N.compare_refl.
Qed.

Lemma row_le_spec (r1 r2 : KeyRow) :
  row_le r1 r2
  ↔ String.le (key r1) (key r2)
    ∧ (key r1 = key r2 → String.le (raw_text r1) (raw_text r2)).
Proof.
  unfold row_le, row_leb, String.le, String.leb.
  destruct (String.compare (key r1) (key r2)) eqn:E.
  - apply String.compare_eq_iff in E. naive_solver.
  - split; [|done]. intros _. split; [done|].
    intros Heq. rewrite Heq, compare_refl in E. done.
  - naive_solver.
Qed.

#[global] Instance row_le_trans : Transitive row_le.
Proof.
  intros r1 r2 r3 [H12 R12]%row_le_spec [H23 R23]%row_le_spec.
  apply row_le_spec. split; [by etrans|].
  intros Heq. rewrite Heq in H12.
  assert (key r2 = key r3) as E23 by by apply (anti_symm String.le).
  assert (key r1 = key r2) as E12 by congruence.
  etrans; [by apply R12 | by apply R23].
Qed.

#[global] Instance row_le_total : Total row_le.
Proof.
  intros r1 r2.
  destruct (total String.le (key r1) (key r2)) as [H|H];
    destruct (decide (key r1 = key r2)) as [E|E].
  - destruct (total String.le (raw_text r1) (raw_text r2)).
    + left. apply row_le_spec. done.
    + right. apply row_le_spec. rewrite E. split; [done|]. done.
  - left. apply row_le_spec. done.
  - destruct (total String.le (raw_text r1) (raw_text r2)).
    + left. apply row_le_spec. rewrite E. done.
    + right. apply row_le_spec. done.
  - right. apply row_le_spec. split; [done|]. intros; congruence.
Qed.



Example sort_values_example :
  sort_values [mkKeyRow "b a" "a b"; mkKeyRow "x" "a"; mkKeyRow "a b" "a b"]
  = [mkKeyRow "x" "a"; mkKeyRow "a b" "a b"; mkKeyRow "b a" "a b"].
Proof. by vm_compute. Qed.

(** ** Representatives by position *)

Section representatives.

Variable K : string -> string.

Lemma rep_key l x y : rep K l x = Some y → K y = K x.
Proof.
  unfold rep. destruct (list_find _ l) as [[i z]|] eqn:E; [|done].
  intros [= <-]. by apply list_find_Some in E as (_ & ? & _).
Qed.

Lemma rep_head x l y : K x = K y → rep K (x :: l) y = Some x.
Proof. intros H. unfold rep. simpl. by rewrite decide_True. Qed.

Lemma rep_skip x l y : K x ≠ K y → rep K (x :: l) y = rep K l y.
Proof.
  intros H. unfold rep. simpl. rewrite decide_False by done.
  by destruct (list_find _ l) as [[? ?]|].
Qed.

Lemma rep_elem_of l x : x ∈ l → is_Some (rep K l x).
Proof.
  intros Hx. unfold rep.
  destruct (list_find_elem_of (λ y, K y = K x) l x Hx eq_refl) as [[i y] ->].
  by eexists.
Qed.

Lemma rep_same_key l x x' : K x = K x' → rep K l x = rep K l x'.
Proof.
  intros HK. unfold rep. f_equal.
  apply list_find_ext. intros y. by rewrite HK.
Qed.

Lemma rep_rep l x y : rep K l x = Some y → rep K l y = Some y.
Proof.
  intros H. rewrite <- H. apply rep_same_key. by eapply rep_key.
Qed.

Lemma rep_or_self_key l x : K (rep_or_self K l x) = K x.
Proof.
  unfold rep_or_self. destruct (rep K l x) as [y|] eqn:E; [|done].
  by eapply rep_key.
Qed.

(** A text that represents itself in [l] still does in the list of the
    representatives. *)
Lemma rep_fixed l y :
  rep K l y = Some y → rep K (rep_or_self K l <$> l) y = Some y.
Proof.
  intros Hy.
  assert (rep_or_self K l y = y) as Hself.
  { unfold rep_or_self. by rewrite Hy. }
  unfold rep in *. rewrite list_find_fmap.
  rewrite (list_find_ext _ (λ x, K x = K y)).
  2:{ intros x. simpl. by rewrite rep_or_self_key. }
  destruct (list_find _ l) as [[i z]|]; simplify_eq/=.
  by rewrite Hself.
Qed.

End representatives.

Lemma key_dict_create stem df k :
  key_dict (create_normalized_key stem df) !! k
  = snd <$> list_find (λ y, key_of stem y = k) df.
Proof.
  rewrite key_dict_lookup, create_normalized_key_rows.
  unfold first_row. rewrite list_find_fmap.
  change ((λ r, key r = k) ∘ (λ raw, mkKeyRow raw (key_of stem raw)))
    with (λ y, key_of stem y = k).
  by destruct (list_find _ df) as [[? ?]|].
Qed.

Lemma cleaned_rep stem df :
  cleaned stem df = rep (key_of stem) df <$> df.
Proof.
  unfold cleaned. rewrite generate_cleaned_text_rows, <- list_fmap_compose.
  set (d := key_dict (create_normalized_key stem df)).
  rewrite create_normalized_key_rows, <- list_fmap_compose.
  apply list_fmap_ext. intros i x _. simpl. apply key_dict_create.
Qed.

Lemma cleaned_length stem df : length (cleaned stem df) = length df.
Proof. by rewrite cleaned_rep, length_fmap. Qed.

Lemma key_of_same_set stem raw1 raw2 :
  set_of (stem <$> words raw1) = set_of (stem <$> words raw2) →
  key_of stem raw1 = key_of stem raw2.
Proof. unfold key_of, key_of_tokens. by intros ->. Qed.

(** ** Strings *)

Lemma str_app_nil_r (s : string) : s +:+ "" = s.
Proof. induction s as [|c s IH]; [done|]. by rewrite <- IH at 2. Qed.

Lemma str_app_cons (c : ascii) (s t : string) :
  String c s +:+ t = String c (s +:+ t).
Proof. done. Qed.

Lemma str_app_nil_l (s : string) : "" +:+ s = s.
Proof. done. Qed.

Lemma join_cons (sep x : string) (l : list string) :
  join sep (x :: l)
  = x +:+ match l with [] => "" | _ => sep +:+ join sep l end.
Proof. destruct l; simpl; [by rewrite str_app_nil_r | done]. Qed.

(** ** The key of a token list *)

(** Two texts without a space, each followed by nothing or by a text
    that starts with a space, are equal when the whole texts are. *)
Lemma space_free_prefix_inj (a : string) :
  ∀ b r1 r2 : string,
    str_mem " "%char a = false → str_mem " "%char b = false →
    (r1 = "" ∨ ∃ r, r1 = String " "%char r) →
    (r2 = "" ∨ ∃ r, r2 = String " "%char r) →
    a +:+ r1 = b +:+ r2 → a = b ∧ r1 = r2.
Proof.
  induction a as [|c a IH]; intros [|d b] r1 r2 Ha Hb H1 H2 E.
  - done.
  - rewrite str_app_nil_l, str_app_cons in E.
    destruct H1 as [->|[r ->]]; [done|]. simplify_eq/=.
  - rewrite str_app_nil_l, str_app_cons in E.
    destruct H2 as [->|[r ->]]; [done|]. simplify_eq/=.
  - rewrite !str_app_cons in E. simplify_eq/=.
    apply orb_false_iff in Ha as [? Ha], Hb as [? Hb].
    destruct (IH b r1 r2 Ha Hb H1 H2) as [-> ->]; done.
Qed.

Lemma is_token_spec (t : string) :
  is_token t → t ≠ "" ∧ str_mem " "%char t = false.
Proof.
  unfold is_token. intros [H1 H2]%andb_True. split.
  - intros ->. done.
  - by apply negb_True, Is_true_false in H2.
Qed.

Lemma join_tokens_inj (l1 : list string) :
  ∀ l2, Forall is_token l1 → Forall is_token l2 →
        join " " l1 = join " " l2 → l1 = l2.
Proof.
  induction l1 as [|x l1 IH]; intros [|y l2] F1 F2 E.
  - done.
  - apply Forall_cons in F2 as [[Hy _]%is_token_spec _].
    rewrite join_cons in E. simpl in E.
    destruct y; [done|]. by rewrite str_app_cons in E.
  - apply Forall_cons in F1 as [[Hx _]%is_token_spec _].
    rewrite join_cons in E. simpl in E.
    destruct x; [done|]. by rewrite str_app_cons in E.
  - apply Forall_cons in F1 as [[_ Hx]%is_token_spec F1].
    apply Forall_cons in F2 as [[_ Hy]%is_token_spec F2].
    rewrite !join_cons in E.
    apply space_free_prefix_inj in E as [-> E]; [|done..| |].
    + f_equal. destruct l1 as [|x' l1], l2 as [|y' l2]; try done.
      apply IH; [done..|]. by apply (inj (String.app " ")) in E.
    + destruct l1; [by left|right; by eexists].
    + destruct l2; [by left|right; by eexists].
Qed.

Lemma sorted_elements_elem_of (x : list string) (t : string) :
  t ∈ sorted (elements (set_of x)) ↔ t ∈ x.
Proof.
  unfold sorted, set_of.
  rewrite merge_sort_Permutation, elem_of_elements, elem_of_list_to_set.
  done.
Qed.

Lemma key_of_tokens_inj (t1 t2 : list string) :
  Forall is_token t1 → Forall is_token t2 →
  key_of_tokens t1 = key_of_tokens t2 → set_of t1 = set_of t2.
Proof.
  intros F1 F2 E. unfold key_of_tokens in E.
  apply join_tokens_inj in E.
  - apply set_eq. intros t. unfold set_of.
    rewrite !elem_of_list_to_set.
    rewrite <- (sorted_elements_elem_of t1), <- (sorted_elements_elem_of t2).
    by rewrite E.
  - apply Forall_forall. intros t Ht.
    apply (proj1 (sorted_elements_elem_of _ _)) in Ht.
    revert t Ht. by apply Forall_forall.
  - apply Forall_forall. intros t Ht.
    apply (proj1 (sorted_elements_elem_of _ _)) in Ht.
    revert t Ht. by apply Forall_forall.
Qed.

(** ** The steps of the normalizer *)

Lemma lower_char_mark (c : ascii) : is_mark c = true → lower_char c = c.
Proof. destruct c as [[] [] [] [] [] [] [] []]; vm_compute; congruence. Qed.

Lemma mark_kept_is_space (c : ascii) :
  is_mark c = true → Ascii.eqb c hyphen = false →
  str_mem c punctuation = false → isspace c = true.
Proof. destruct c as [[] [] [] [] [] [] [] []]; vm_compute; congruence. Qed.

Lemma punctuation_without_hyphen (c : ascii) :
  Ascii.eqb c hyphen = false →
  str_mem c punctuation = str_mem c punctuation_spec.
Proof. destruct c as [[] [] [] [] [] [] [] []]; vm_compute; congruence. Qed.

Lemma str_all_lstrip (p : ascii -> bool) (s : string) :
  str_all p s = true → str_all p (lstrip s) = true.
Proof.
  induction s as [|c s IH]; simpl; [done|].
  intros [? ?]%andb_true_iff. destruct (isspace c); simpl; [auto|].
  by apply andb_true_iff.
Qed.

Lemma str_all_rstrip (p : ascii -> bool) (s : string) :
  str_all p s = true → str_all p (rstrip s) = true.
Proof.
  induction s as [|c s IH]; simpl; [done|].
  intros [Hc Hs]%andb_true_iff. specialize (IH Hs).
  destruct (rstrip s) as [|d r].
  - destruct (isspace c); simpl; [done|]. by rewrite Hc.
  - change (p c && str_all p (String d r) = true). by rewrite Hc.
Qed.

Lemma lower_only_marks (s : string) : only_marks s = true → lower s = s.
Proof.
  unfold only_marks. induction s as [|c s IH]; simpl; [done|].
  intros [Hc Hs]%andb_true_iff. by rewrite lower_char_mark, IH.
Qed.

Lemma marks_deleted_leave_space (s : string) :
  only_marks s = true →
  str_all isspace (translate (maketrans punctuation) (replace hyphen "" s))
  = true.
Proof.
  unfold only_marks. induction s as [|c s IH]; simpl; [done|].
  intros [Hc Hs]%andb_true_iff. specialize (IH Hs).
  destruct (Ascii.eqb c hyphen) eqn:Hh; [by rewrite str_app_nil_l|].
  simpl. unfold maketrans at 1.
  destruct (str_mem c punctuation) eqn:Hp; [done|].
  simpl. by rewrite (mark_kept_is_space c), IH.
Qed.

Lemma split_from_space (s : string) :
  str_all isspace s = true → split_from "" s = [].
Proof.
  induction s as [|c s IH]; simpl; [done|].
  intros [-> Hs]%andb_true_iff. auto.
Qed.

Lemma words_only_marks (raw : string) : only_marks raw = true → words raw = [].
Proof.
  intros H. unfold words, split. apply split_from_space.
  assert (only_marks (strip raw) = true) as Hs.
  { unfold strip. by apply str_all_rstrip, str_all_lstrip. }
  rewrite lower_only_marks by done. by apply marks_deleted_leave_space.
Qed.

(** ** The program's steps and the specification's steps *)

Lemma lstrip_spec (s : string) : lstrip s = drop_leading_spec s.
Proof. induction s as [|c s IH]; simpl; [done|]. by rewrite IH. Qed.

Lemma rstrip_empty (s : string) :
  rstrip s = "" ↔ str_all isspace s = true.
Proof.
  induction s as [|c s IH]; simpl; [done|].
  destruct (rstrip s) as [|d r] eqn:E.
  - destruct (isspace c); simpl; [|done].
    split; [intros _; by apply IH | done].
  - split; [done|]. intros [_ Hs]%andb_true_iff.
    by apply IH in Hs.
Qed.

Lemma rstrip_spec (s : string) : rstrip s = drop_trailing_spec s.
Proof.
  induction s as [|c s IH]; [done|].
  change (rstrip (String c s))
    with (match rstrip s with
          | "" => if isspace c then "" else String c ""
          | r => String c r
          end).
  change (drop_trailing_spec (String c s))
    with (if isspace c && str_all isspace s then ""
          else String c (drop_trailing_spec s)).
  rewrite <- IH.
  destruct (str_all isspace s) eqn:Hs.
  - apply rstrip_empty in Hs as ->. by destruct (isspace c).
  - rewrite andb_false_r. destruct (rstrip s) as [|d r] eqn:E; [|done].
    apply rstrip_empty in E. congruence.
Qed.

Lemma strip_spec (s : string) : strip s = trim_spec s.
Proof. unfold strip, trim_spec. by rewrite rstrip_spec, lstrip_spec. Qed.

Lemma lower_spec (s : string) : lower s = lowercase_spec s.
Proof. induction s as [|c s IH]; simpl; [done|]. by rewrite IH. Qed.

Lemma replace_hyphen_spec (s : string) :
  replace hyphen "" s = delete_spec (Ascii.eqb hyphen) s.
Proof.
  induction s as [|c s IH]; [done|].
  cbn [replace delete_spec].
  rewrite (Ascii.eqb_sym hyphen c), IH.
  by destruct (Ascii.eqb c hyphen).
Qed.

Lemma translate_punctuation_spec (s : string) :
  str_all (λ c, negb (Ascii.eqb c hyphen)) s = true →
  translate (maketrans punctuation) s
  = delete_spec (λ c, str_mem c punctuation_spec) s.
Proof.
  induction s as [|c s IH]; [done|].
  cbn [translate delete_spec str_all].
  intros [Hc Hs]%andb_true_iff. apply negb_true_iff in Hc.
  unfold maketrans at 1. rewrite (punctuation_without_hyphen c Hc), IH by done.
  by destruct (str_mem c punctuation_spec).
Qed.

Lemma replace_hyphen_free (s : string) :
  str_all (λ c, negb (Ascii.eqb c hyphen)) (replace hyphen "" s) = true.
Proof.
  induction s as [|c s IH]; simpl; [done|].
  destruct (Ascii.eqb c hyphen) eqn:Hc; [by rewrite str_app_nil_l|].
  simpl. by rewrite Hc, IH.
Qed.

Lemma str_app_assoc (s t u : string) : (s +:+ t) +:+ u = s +:+ (t +:+ u).
Proof.
  induction s as [|c s IH]; [done|]. by rewrite !str_app_cons, IH.
Qed.

Lemma pieces_spec_cons (s : string) : ∃ p ps, pieces_spec s = p :: ps.
Proof.
  induction s as [|c s (p & ps & IH)]; simpl; [by eexists _, _|].
  destruct (isspace c); [by eexists _, _|]. rewrite IH. by eexists _, _.
Qed.

Lemma split_from_spec (s : string) :
  ∀ w : string,
    split_from w s
    = match pieces_spec s with
      | p :: ps => filter (λ p, nonempty p) ((w +:+ p) :: ps)
      | [] => []
      end.
Proof.
  induction s as [|c s IH]; intros w; simpl.
  - rewrite str_app_nil_r. by destruct w.
  - destruct (isspace c).
    + rewrite str_app_nil_r.
      destruct (pieces_spec_cons s) as (p & ps & E).
      assert (split_from "" s = filter (λ p, nonempty p) (pieces_spec s))
        as ->.
      { rewrite IH, E. by rewrite str_app_nil_l. }
      by destruct w.
    + rewrite IH. destruct (pieces_spec_cons s) as (p & ps & ->).
      by rewrite str_app_assoc, str_app_cons, str_app_nil_l.
Qed.

Lemma split_spec (s : string) : split s = tokens_spec s.
Proof.
  unfold split, tokens_spec. rewrite split_from_spec.
  destruct (pieces_spec_cons s) as (p & ps & ->).
  by rewrite str_app_nil_l.
Qed.

Lemma words_spec (stem : string -> string) (raw : string) :
  stem <$> words raw = normalize_spec stem raw.
Proof.
  unfold words, normalize_spec; cbv zeta.
  rewrite split_spec, translate_punctuation_spec by apply replace_hyphen_free.
  by rewrite replace_hyphen_spec, lower_spec, strip_spec.
Qed.

Lemma key_of_tokens_singleton (t : string) : key_of_tokens [t] = t.
Proof.
  unfold key_of_tokens, set_of. simpl.
  by rewrite (right_id_L ∅ (∪)), elements_singleton.
Qed.

(** ** The stemmer that can raise *)

Lemma words_column (df : list string) :
  split <$> (translate (maketrans punctuation)
    <$> (replace hyphen "" <$> (lower <$> (strip <$> df))))
  = words <$> df.
Proof. by rewrite <- !list_fmap_compose. Qed.

Lemma create_normalized_key_exc_None (stem : string -> option string) df :
  create_normalized_key_exc stem df = None
  ↔ ∃ raw w, raw ∈ df ∧ w ∈ words raw ∧ stem w = None.
Proof.
  unfold create_normalized_key_exc; cbv zeta. rewrite words_column.
  destruct (mapM _ _) as [k|] eqn:E; simpl.
  - split; [done|]. intros (raw & w & Hraw & Hw & Hstem).
    assert (mapM (λ x, mapM stem x) (words <$> df) = None) as E'; [|congruence].
    apply mapM_None, Exists_exists. exists (words raw). split.
    + apply list_elem_of_fmap. eauto.
    + apply mapM_None, Exists_exists. eauto.
  - split; [|done]. intros _.
    apply mapM_None, Exists_exists in E as (x & Hx & Hnone).
    apply list_elem_of_fmap in Hx as (raw & -> & Hraw).
    apply mapM_None, Exists_exists in Hnone as (w & Hw & Hstem).
    eauto.
Qed.

(** ** The words of a text are tokens *)

Lemma str_mem_app (c : ascii) (s t : string) :
  str_mem c (s +:+ t) = str_mem c s || str_mem c t.
Proof.
  induction s as [|d s IH]; [done|].
  rewrite str_app_cons. simpl. by rewrite IH, orb_assoc.
Qed.

Lemma not_whitespace_not_space (c : ascii) :
  isspace c = false → Ascii.eqb " " c = false.
Proof. destruct c as [[] [] [] [] [] [] [] []]; vm_compute; congruence. Qed.

Lemma is_token_cons (c : ascii) (w : string) :
  str_mem " "%char (String c w) = false → is_token (String c w).
Proof. intros H. unfold is_token. by rewrite H. Qed.

Lemma split_from_tokens (s : string) :
  ∀ w, str_mem " "%char w = false → Forall is_token (split_from w s).
Proof.
  induction s as [|c s IH]; intros w Hw; simpl.
  - destruct w; [constructor|]. by repeat constructor; apply is_token_cons.
  - destruct (isspace c) eqn:Hc.
    + destruct w; [by apply IH|].
      constructor; [by apply is_token_cons | by apply IH].
    + apply IH. rewrite str_mem_app, Hw. cbn [str_mem orb].
      by rewrite not_whitespace_not_space.
Qed.

(** For texts without a space or for the empty token the key says less
    than the set: the condition on the tokens is needed. *)
Example key_of_tokens_with_space :
  key_of_tokens ["a b"] = key_of_tokens ["a"; "b"]
  ∧ key_of_tokens [""] = key_of_tokens [].
Proof. split; by vm_compute. Qed.

(** * The claims *)

(** C10: in [generate_cleaned_text] the dictionary is built from
    [drop_duplicates] of the frame [df] itself, the sorted copy being
    dropped; so the representative of a key [k] is the [raw_text] of the
    first row of [df], in the order of [df], whose key is [k], and every
    row of key [k] gets it as [cleaned_text]. *)
Theorem representative_is_first_row_in_input_order
    (df : list KeyRow) (k : string) (i : nat) (r : KeyRow) :
  df !! i = Some r →
  key r = k →
  (∀ j r', j < i → df !! j = Some r' → key r' ≠ k) →
  key_dict df
    = dict (zip (key <$> drop_duplicates df) (raw_text <$> drop_duplicates df))
  ∧ key_dict df !! k = Some (raw_text r)
  ∧ (∀ j r', df !! j = Some r' → key r' = k →
       generate_cleaned_text df !! j
       = Some (mkCleanRow r' (Some (raw_text r)))).
Proof.
  intros Hi Hk Hfirst.
  assert (first_row k df = Some (i, r)) as Hfind.
  { apply list_find_Some. split_and!; [done..|]. intros j y ? ?. eauto. }
  assert (key_dict df !! k = Some (raw_text r)) as Hdict.
  { by rewrite key_dict_lookup, Hfind. }
  split_and!; [done..|].
  intros j r' Hj Hk'.
  rewrite generate_cleaned_text_rows, list_lookup_fmap, Hj. simpl.
  by rewrite Hk', Hdict.
Qed.

Lemma representative_is_first_row_in_input_order_witness :
  key_dict [mkKeyRow "b a" "a b"; mkKeyRow "a b" "a b"] !! "a b" = Some "b a".
Proof.
  apply (representative_is_first_row_in_input_order
           [mkKeyRow "b a" "a b"; mkKeyRow "a b" "a b"] "a b" 0
           (mkKeyRow "b a" "a b")).
  - reflexivity.
  - reflexivity.
  - intros j r' Hj. lia.
Defined.

(** C2: the dictionary has an entry exactly for the keys of the frame, the
    pairs it is built from carry every key once, every row ends with the
    entry of its own key as [cleaned_text], and every entry is the
    [raw_text] of a row of that key, which keeps its own text. *)
Theorem cluster_coverage (df : list KeyRow) :
  dom (key_dict df) = list_to_set (key <$> df)
  ∧ NoDup (key <$> drop_duplicates df)
  ∧ length (generate_cleaned_text df) = length df
  ∧ Forall (λ r : CleanRow,
       ∃ t, key_dict df !! key r = Some t ∧ cleaned_text r = Some t)
      (generate_cleaned_text df)
  ∧ (∀ k t, key_dict df !! k = Some t →
       ∃ r : CleanRow, r ∈ generate_cleaned_text df ∧ key r = k
         ∧ raw_text r = t ∧ cleaned_text r = Some t).
Proof.
  split_and!.
  - apply set_eq. intros k.
    rewrite elem_of_dom, key_dict_lookup, elem_of_list_to_set, list_elem_of_fmap.
    unfold first_row. split.
    + intros [v Hv]. destruct (list_find _ df) as [[i r]|] eqn:E; [|done].
      apply list_find_Some in E as (Hi & Hk & _).
      exists r. split; [done|]. by eapply list_elem_of_lookup_2.
    + intros (r & -> & Hr).
      destruct (first_row_is_Some df r Hr) as (i & r0 & E).
      unfold first_row in E. rewrite E. by eexists.
  - apply drop_duplicates_from_NoDup.
  - by rewrite generate_cleaned_text_rows, length_fmap.
  - rewrite generate_cleaned_text_rows. apply Forall_fmap, Forall_forall.
    intros r Hr. simpl.
    destruct (first_row_is_Some df r Hr) as (i & r0 & E).
    exists (raw_text r0). by rewrite key_dict_lookup, E.
  - intros k v Hv. rewrite key_dict_lookup in Hv.
    destruct (first_row k df) as [[i r]|] eqn:E; simplify_eq/=.
    pose proof E as E'. apply list_find_Some in E' as (Hi & Hk & _).
    exists (mkCleanRow r (Some (raw_text r))). split_and!; [|done..].
    rewrite generate_cleaned_text_rows. apply list_elem_of_fmap.
    exists r. split; [|by eapply list_elem_of_lookup_2].
    by rewrite key_dict_lookup, Hk, E.
Qed.

(** C3: the [cleaned_text] column of a first pass, taken as the
    [raw_text] column of a second pass, is the [cleaned_text] column of
    that second pass. *)
Theorem pipeline_idempotent (stem : string -> string) (df : list string) :
  ∃ out : list string,
    cleaned stem df = Some <$> out ∧ cleaned stem out = Some <$> out.
Proof.
  set (K := key_of stem).
  exists (rep_or_self K df <$> df). split.
  - rewrite cleaned_rep, <- list_fmap_compose. apply list_fmap_ext.
    intros i x Hx. simpl. unfold rep_or_self.
    destruct (rep_elem_of K df x) as [y Hy];
      [by eapply list_elem_of_lookup_2|].
    fold K. by rewrite Hy.
  - rewrite cleaned_rep. fold K. apply list_fmap_ext.
    intros i z Hz. apply list_elem_of_lookup_2 in Hz.
    apply list_elem_of_fmap in Hz as (x & -> & Hx).
    apply rep_fixed. unfold rep_or_self.
    destruct (rep_elem_of K df x Hx) as [y Hy]. rewrite Hy. simpl.
    by eapply rep_rep.
Qed.

(** C1: the two rows [b a] and [a b] have the same key whatever the
    stemmer, their cluster holds two distinct texts of which [a b] is the
    smallest, and [generate_cleaned_text] gives both rows [b a], the text
    of the row that comes first; with the two rows exchanged it gives
    [a b]. *)
Theorem first_row_chosen_not_smallest (stem : string -> string) :
  ∃ k : string,
    create_normalized_key stem ["b a"; "a b"]
      = [mkKeyRow "b a" k; mkKeyRow "a b" k]
    ∧ cluster (create_normalized_key stem ["b a"; "a b"]) k = ["b a"; "a b"]
    ∧ smallest "a b" ["b a"; "a b"]
    ∧ ¬ smallest "b a" ["b a"; "a b"]
    ∧ key_dict (create_normalized_key stem ["b a"; "a b"]) !! k = Some "b a"
    ∧ cleaned stem ["b a"; "a b"] = [Some "b a"; Some "b a"]
    ∧ cleaned stem ["a b"; "b a"] = [Some "a b"; Some "a b"].
Proof.
  assert (key_of stem "b a" = key_of stem "a b") as HK.
  { apply key_of_same_set.
    change (words "b a") with ["b"; "a"]. change (words "a b") with ["a"; "b"].
    unfold set_of. simpl. set_solver. }
  exists (key_of stem "a b").
  assert (create_normalized_key stem ["b a"; "a b"]
          = [mkKeyRow "b a" (key_of stem "a b");
             mkKeyRow "a b" (key_of stem "a b")]) as Hrows.
  { rewrite create_normalized_key_rows. simpl. by rewrite HK. }
  split_and!.
  - done.
  - rewrite Hrows. unfold cluster.
    rewrite filter_cons_True by done. rewrite filter_cons_True by done.
    done.
  - split; [apply elem_of_cons; right; apply elem_of_cons; by left|].
    intros y [->|[->|[]%elem_of_nil]%elem_of_cons]%elem_of_cons; done.
  - intros [_ H]. apply (H "a b").
    apply elem_of_cons; right; apply elem_of_cons; by left.
  - rewrite key_dict_create. by apply (rep_head (key_of stem)).
  - rewrite cleaned_rep, !fmap_cons, fmap_nil.
    by rewrite !(rep_head (key_of stem)).
  - rewrite cleaned_rep, !fmap_cons, fmap_nil.
    by rewrite !(rep_head (key_of stem)).
Qed.

(** C4: for token lists (tokens are not empty and hold no space) the keys
    are equal exactly when the sets of tokens are; the key does not
    change when the tokens are reordered or repeated. *)
Theorem key_equal_iff_same_token_set (t1 t2 : list string) :
  Forall is_token t1 → Forall is_token t2 →
  (key_of_tokens t1 = key_of_tokens t2 ↔ set_of t1 = set_of t2)
  ∧ key_of_tokens (t1 ++ t2) = key_of_tokens (t2 ++ t1)
  ∧ key_of_tokens (t1 ++ t1) = key_of_tokens t1.
Proof.
  intros F1 F2. split_and!.
  - split; [by apply key_of_tokens_inj|].
    unfold key_of_tokens. by intros ->.
  - unfold key_of_tokens. f_equal. f_equal. f_equal.
    unfold set_of. set_solver.
  - unfold key_of_tokens. f_equal. f_equal. f_equal.
    unfold set_of. set_solver.
Qed.

Lemma key_equal_iff_same_token_set_witness :
  key_of_tokens ["run"; "fast"; "run"] = key_of_tokens ["fast"; "run"]
  ↔ set_of ["run"; "fast"; "run"] = set_of ["fast"; "run"].
Proof.
  apply (key_equal_iff_same_token_set ["run"; "fast"; "run"] ["fast"; "run"]).
  - repeat constructor.
  - repeat constructor.
Defined.

(** C6: a text made of whitespace, hyphens and punctuation only has no
    token and the empty key; in every frame its row has the key [""] and
    shares its [cleaned_text] with every other row of such a text. *)
Theorem marks_only_text_has_empty_key
    (stem : string -> string) (raw : string) :
  only_marks raw = true →
  words raw = []
  ∧ stem <$> words raw = []
  ∧ key_of stem raw = ""
  ∧ (∀ (df : list string) (i j : nat) (raw' : string),
       df !! i = Some raw → df !! j = Some raw' → only_marks raw' = true →
       create_normalized_key stem df !! i = Some (mkKeyRow raw "")
       ∧ create_normalized_key stem df !! j = Some (mkKeyRow raw' "")
       ∧ cleaned stem df !! i = cleaned stem df !! j).
Proof.
  intros H.
  assert (∀ x, only_marks x = true → key_of stem x = "") as Hkey.
  { intros x Hx. unfold key_of. by rewrite words_only_marks. }
  split_and!.
  - by apply words_only_marks.
  - by rewrite words_only_marks.
  - by apply Hkey.
  - intros df i j raw' Hi Hj H'.
    rewrite create_normalized_key_rows, cleaned_rep, !list_lookup_fmap.
    rewrite Hi, Hj. simpl. rewrite !Hkey by done. split_and!; [done..|].
    f_equal. apply rep_same_key. by rewrite !Hkey.
Qed.

Lemma marks_only_text_has_empty_key_witness :
  words "???...,,," = [] ∧ key_of table_stem "???...,,," = "".
Proof.
  destruct (marks_only_text_has_empty_key table_stem "???...,,,")
    as (Hw & _ & Hk & _).
  - reflexivity.
  - split; [exact Hw | exact Hk].
Defined.

(** C5: the key column that [create_normalized_key] computes is, row by
    row, the key of the tokens obtained by trimming, lowercasing,
    deleting the hyphens, deleting the listed punctuation, splitting on
    whitespace runs and stemming, in this order; a hyphen or a
    punctuation character disappears without separating tokens. *)
Theorem create_normalized_key_follows_steps
    (stem : string -> string) (df : list string) :
  create_normalized_key stem df
    = (λ raw, mkKeyRow raw (buildKey_spec (normalize_spec stem raw))) <$> df
  ∧ normalize_spec stem "runner-fast" = [stem "runnerfast"]
  ∧ normalize_spec stem " A, b.C  d-E " = [stem "a"; stem "bc"; stem "de"].
Proof.
  split_and!.
  - rewrite create_normalized_key_rows. apply list_fmap_ext.
    intros i raw _. f_equal. unfold key_of. by rewrite words_spec.
  - reflexivity.
  - reflexivity.
Qed.

(** C7, as the claim states it: the row [runner-fast] has one token
    whatever the stemmer, so its token set is never [{fast, run}]; with
    the stems [run] for [running] and [runner] the three rows do not end
    with one [cleaned_text]. *)
Lemma scenario1_counterexample :
  (¬ ∃ stem : string -> string,
       set_of (stem <$> words "runner-fast") = {["fast"; "run"]})
  ∧ cleaned table_stem scenario1
    = [Some "Running fast!"; Some "runner-fast"; Some "Running fast!"].
Proof.
  split; [|by vm_compute].
  intros [stem H]. change (words "runner-fast") with ["runnerfast"] in H.
  unfold set_of in H. simpl in H.
  assert ("fast" = stem "runnerfast") as H1.
  { assert ("fast" ∈ ({[stem "runnerfast"]} ∪ ∅ : gset string)) as Hin.
    { rewrite H. apply elem_of_union_l. by apply elem_of_singleton. }
    by apply elem_of_union in Hin as [Hin%elem_of_singleton|?%elem_of_empty]. }
  assert ("run" = stem "runnerfast") as H2.
  { assert ("run" ∈ ({[stem "runnerfast"]} ∪ ∅ : gset string)) as Hin.
    { rewrite H. apply elem_of_union_r. by apply elem_of_singleton. }
    by apply elem_of_union in Hin as [Hin%elem_of_singleton|?%elem_of_empty]. }
  congruence.
Qed.

(** C7, amended: with a stemmer that gives [run] for [running] and
    [fast] for [fast], the first and the third row have the token set
    [{fast, run}] and the key [fast run], and end with one
    [cleaned_text], the text of one of the two; [runner-fast] is the one
    word [runnerfast] once its hyphen is deleted, its key is the stem of
    that word, and when this is not [fast run] the row keeps its own
    text. *)
Theorem scenario1_clusters (stem : string -> string) :
  stem "running" = "run" → stem "fast" = "fast" →
  stem "runnerfast" ≠ "fast run" →
  set_of (stem <$> words "Running fast!") = {["fast"; "run"]}
  ∧ set_of (stem <$> words "  RUNNING FAST  ") = {["fast"; "run"]}
  ∧ stem <$> words "runner-fast" = [stem "runnerfast"]
  ∧ create_normalized_key stem scenario1
    = [mkKeyRow "Running fast!" "fast run";
       mkKeyRow "runner-fast" (stem "runnerfast");
       mkKeyRow "  RUNNING FAST  " "fast run"]
  ∧ ∃ c, c ∈ ["Running fast!"; "  RUNNING FAST  "]
         ∧ cleaned stem scenario1 = [Some c; Some "runner-fast"; Some c].
Proof.
  intros Hrun Hfast Hne.
  assert (stem <$> words "Running fast!" = ["run"; "fast"]) as W1.
  { change (words "Running fast!") with ["running"; "fast"].
    by rewrite !fmap_cons, Hrun, Hfast. }
  assert (stem <$> words "  RUNNING FAST  " = ["run"; "fast"]) as W3.
  { change (words "  RUNNING FAST  ") with ["running"; "fast"].
    by rewrite !fmap_cons, Hrun, Hfast. }
  assert (stem <$> words "runner-fast" = [stem "runnerfast"]) as W2 by done.
  assert (key_of_tokens ["run"; "fast"] = "fast run") as K13 by by vm_compute.
  assert (key_of stem "Running fast!" = "fast run") as K1.
  { unfold key_of. by rewrite W1. }
  assert (key_of stem "  RUNNING FAST  " = "fast run") as K3.
  { unfold key_of. by rewrite W3. }
  assert (key_of stem "runner-fast" = stem "runnerfast") as K2.
  { unfold key_of. by rewrite W2, key_of_tokens_singleton. }
  split_and!.
  - rewrite W1. unfold set_of. simpl. set_solver.
  - rewrite W3. unfold set_of. simpl. set_solver.
  - done.
  - rewrite create_normalized_key_rows. unfold scenario1.
    by rewrite !fmap_cons, fmap_nil, K1, K2, K3.
  - exists "Running fast!". split; [by apply elem_of_cons; left|].
    rewrite cleaned_rep. unfold scenario1. rewrite !fmap_cons, fmap_nil.
    rewrite (rep_head (key_of stem) "Running fast!" _ "Running fast!") by done.
    rewrite (rep_head (key_of stem) "Running fast!" _ "  RUNNING FAST  ")
      by by rewrite K1, K3.
    rewrite (rep_skip (key_of stem) "Running fast!" _ "runner-fast")
      by by rewrite K1, K2.
    by rewrite (rep_head (key_of stem) "runner-fast" _ "runner-fast").
Qed.

Lemma scenario1_clusters_witness :
  create_normalized_key table_stem scenario1
  = [mkKeyRow "Running fast!" "fast run";
     mkKeyRow "runner-fast" (table_stem "runnerfast");
     mkKeyRow "  RUNNING FAST  " "fast run"].
Proof.
  destruct (scenario1_clusters table_stem) as (_ & _ & _ & H & _).
  - reflexivity.
  - reflexivity.
  - discriminate.
  - exact H.
Defined.

(** C8, as the claim states it: on the batch [a], [b c], [d] and a stemmer
    that raises on [b], [create_normalized_key] does not return the keys
    computed with the unstemmed token in the place of the failure: it
    returns nothing. *)
Lemma stemmer_failure_counterexample :
  create_normalized_key_exc stem_raising_on_b ["a"; "b c"; "d"]
  ≠ Some (create_normalized_key (fallback stem_raising_on_b) ["a"; "b c"; "d"]).
Proof. by vm_compute. Qed.

(** C8, amended: when the stemmer raises on a token of a row, the
    exception leaves [create_normalized_key] and no row of the batch
    gets a key; there is no fallback to the unstemmed token. *)
Theorem stemmer_failure_aborts_batch
    (stem : string -> option string) (df : list string) (raw w : string) :
  raw ∈ df → w ∈ words raw → stem w = None →
  create_normalized_key_exc stem df = None.
Proof.
  intros Hraw Hw Hstem. apply create_normalized_key_exc_None. eauto.
Qed.

Lemma stemmer_failure_aborts_batch_witness :
  create_normalized_key_exc stem_raising_on_b ["a"; "b c"; "d"] = None.
Proof.
  apply (stemmer_failure_aborts_batch stem_raising_on_b
           ["a"; "b c"; "d"] "b c" "b").
  - apply elem_of_cons; right. apply elem_of_cons; by left.
  - apply elem_of_cons; by left.
  - reflexivity.
Defined.

(** C9: the table that [main] leaves at [output_file] has the two
    columns [raw_text] and [cleaned_text] and no column [key]; it has one
    line per row of the input, in the order of the input, made of the
    row's [raw_text] as it was read and of its [cleaned_text]. *)
Theorem saved_table_columns_and_rows
    (stem : string -> string) (df : list string) (output_file : string)
    (fs : gmap string Table) :
  ∃ t : Table,
    main stem df output_file fs !! output_file = Some t
    ∧ header t = ["raw_text"; "cleaned_text"]
    ∧ ("key" ∉ header t)
    ∧ length (body t) = length df
    ∧ body t = zip_with (λ raw c, [Some raw; c]) df (cleaned stem df)
    ∧ raw_text <$> create_normalized_key stem df = df
    ∧ (λ r : CleanRow, raw_text r)
        <$> generate_cleaned_text (create_normalized_key stem df) = df.
Proof.
  eexists. split_and!.
  - unfold main, save_data, to_csv; cbv zeta. apply lookup_insert_eq.
  - done.
  - simpl. intros [?|[?|[]%elem_of_nil]%elem_of_cons]%elem_of_cons; done.
  - simpl. by rewrite length_fmap, generate_cleaned_text_rows,
      length_fmap, create_normalized_key_rows, length_fmap.
  - simpl. rewrite cleaned_rep, zip_with_fmap_same.
    rewrite generate_cleaned_text_rows.
    set (d := key_dict (create_normalized_key stem df)).
    rewrite create_normalized_key_rows, <- !list_fmap_compose.
    apply list_fmap_ext. intros i raw _. simpl.
    unfold d. by rewrite key_dict_create.
  - apply create_normalized_key_raw_text.
  - rewrite generate_cleaned_text_rows, <- list_fmap_compose.
    apply create_normalized_key_raw_text.
Qed.

(** * Further properties *)



(** X2: every word that the program hands to the stemmer is a token:
    it is not empty and holds no space. *)
Theorem words_are_tokens (raw : string) : Forall is_token (words raw).
Proof. unfold words, split. by apply split_from_tokens. Qed.




(** ** The character-wise steps and [split] over concatenation *)

Lemma lower_app (a b : string) : lower (a +:+ b) = lower a +:+ lower b.
Proof.
  induction a as [|c a IH]; [done|].
  rewrite str_app_cons. simpl. by rewrite IH, str_app_cons.
Qed.

Lemma replace_app (old : ascii) (new a b : string) :
  replace old new (a +:+ b) = replace old new a +:+ replace old new b.
Proof.
  induction a as [|c a IH]; [done|].
  rewrite str_app_cons. simpl. rewrite IH.
  destruct (Ascii.eqb c old); [by rewrite str_app_assoc | by rewrite str_app_cons].
Qed.

Lemma translate_app (table : ascii -> option ascii) (a b : string) :
  translate table (a +:+ b) = translate table a +:+ translate table b.
Proof.
  induction a as [|c a IH]; [done|].
  rewrite str_app_cons. simpl. rewrite IH.
  destruct (table c); [by rewrite str_app_cons | done].
Qed.

Lemma lstrip_split (s : string) :
  ∃ u, str_all isspace u = true ∧ s = u +:+ lstrip s.
Proof.
  induction s as [|c s (u & Hu & IH)]; [by exists ""|].
  simpl. destruct (isspace c) eqn:Hc.
  - exists (String c u). split; [simpl; by rewrite Hc|].
    by rewrite str_app_cons, <- IH.
  - by exists "".
Qed.

Lemma rstrip_split (s : string) :
  ∃ v, str_all isspace v = true ∧ s = rstrip s +:+ v.
Proof.
  induction s as [|c s (v & Hv & IH)]; [by exists ""|].
  simpl. destruct (rstrip s) as [|d r] eqn:E.
  - destruct (isspace c) eqn:Hc.
    + exists (String c v). split; [simpl; by rewrite Hc|].
      rewrite str_app_nil_l in *. by rewrite <- IH.
    + exists v. split; [done|]. rewrite str_app_cons. by rewrite <- IH.
  - exists v. split; [done|]. rewrite str_app_cons. by rewrite <- IH.
Qed.

Lemma isspace_is_mark (c : ascii) : isspace c = true → is_mark c = true.
Proof. unfold is_mark. by intros ->. Qed.

Lemma only_marks_space (u : string) :
  str_all isspace u = true → only_marks u = true.
Proof.
  unfold only_marks. induction u as [|c u IH]; simpl; [done|].
  intros [Hc Hu]%andb_true_iff. by rewrite isspace_is_mark, IH.
Qed.

Lemma space_not_deleted (c : ascii) :
  isspace c = true → Ascii.eqb c hyphen = false ∧ str_mem c punctuation = false.
Proof. destruct c as [[] [] [] [] [] [] [] []]; vm_compute; done. Qed.

Lemma squash_space (u : string) :
  str_all isspace u = true →
  translate (maketrans punctuation) (replace hyphen "" (lower u)) = u.
Proof.
  intros Hu. rewrite lower_only_marks by by apply only_marks_space.
  induction u as [|c u IH]; [done|].
  simpl in Hu. apply andb_true_iff in Hu as [Hc Hu].
  destruct (space_not_deleted c Hc) as [Hh Hp].
  cbn [replace]. rewrite Hh. cbn [translate]. unfold maketrans at 1.
  by rewrite Hp, IH.
Qed.

Lemma split_from_trailing (v : string) :
  str_all isspace v = true → ∀ a w, split_from w (a +:+ v) = split_from w a.
Proof.
  intros Hv.
  assert (∀ w, split_from w v = split_from w "") as Hbase.
  { induction v as [|c v IH]; [done|]. intros w.
    simpl in Hv. apply andb_true_iff in Hv as [Hc Hv].
    simpl. rewrite Hc. rewrite (IH Hv ""). by destruct w. }
  induction a as [|c a IH]; intros w.
  - by rewrite str_app_nil_l.
  - rewrite str_app_cons. simpl. destruct (isspace c); [|by rewrite IH].
    rewrite IH. done.
Qed.

Lemma split_leading (u s : string) :
  str_all isspace u = true → split (u +:+ s) = split s.
Proof.
  unfold split. induction u as [|c u IH]; [done|].
  simpl. intros [-> Hu]%andb_true_iff. auto.
Qed.

Lemma split_from_sep (c : ascii) (b : string) :
  isspace c = true →
  ∀ a w, split_from w (a +:+ String c b) = split_from w a ++ split b.
Proof.
  intros Hc. induction a as [|d a IH]; intros w.
  - rewrite str_app_nil_l. simpl. rewrite Hc. by destruct w.
  - rewrite str_app_cons. simpl. destruct (isspace d); [|by rewrite IH].
    rewrite IH. by destruct w.
Qed.

Lemma words_squash (raw : string) :
  words raw
  = split (translate (maketrans punctuation) (replace hyphen "" (lower raw))).
Proof.
  unfold words, strip.
  destruct (lstrip_split raw) as (u & Hu & E1).
  destruct (rstrip_split (lstrip raw)) as (v & Hv & E2).
  rewrite E1 at 2. rewrite E2 at 2.
  rewrite !lower_app, !replace_app, !translate_app.
  rewrite (squash_space u), (squash_space v) by done.
  rewrite split_leading by done.
  unfold split. by rewrite split_from_trailing.
Qed.



Lemma str_app_single (c : ascii) (b : string) :
  String c b = String c "" +:+ b.
Proof. done. Qed.

Lemma split_from_word (x : string) :
  str_all (λ c, negb (isspace c)) x = true →
  ∀ w, split_from w x = if nonempty (w +:+ x) then [w +:+ x] else [].
Proof.
  induction x as [|c x IH]; intros Hx w.
  - rewrite str_app_nil_r. by destruct w.
  - simpl in Hx. apply andb_true_iff in Hx as [Hc Hx].
    apply negb_true_iff in Hc. simpl. rewrite Hc, IH by done.
    by rewrite str_app_assoc.
Qed.

Lemma is_word_spec (t : string) :
  is_word t → nonempty t = true ∧ str_all (λ c, negb (isspace c)) t = true.
Proof. unfold is_word. by intros [?%Is_true_true ?%Is_true_true]%andb_True. Qed.

Lemma split_word (x : string) : is_word x → split x = [x].
Proof.
  intros [Hn Hx]%is_word_spec. unfold split.
  rewrite split_from_word, str_app_nil_l by done. by rewrite Hn.
Qed.

Lemma split_join_words (l : list string) :
  Forall is_word l → split (join " " l) = l.
Proof.
  induction l as [|x l IH]; intros F; [done|].
  apply Forall_cons in F as [Hx F]. rewrite join_cons.
  destruct l as [|y l].
  - rewrite str_app_nil_r. by apply split_word.
  - rewrite (str_app_cons " " ""), str_app_nil_l.
    unfold split. rewrite (split_from_sep " " _ eq_refl).
    fold (split x). rewrite split_word by done. simpl. f_equal. by apply IH.
Qed.

Lemma not_whitespace_app (w : string) (c : ascii) :
  str_all (λ c, negb (isspace c)) w = true → isspace c = false →
  str_all (λ c, negb (isspace c)) (w +:+ String c "") = true.
Proof.
  intros Hw Hc. induction w as [|d w IH].
  - rewrite str_app_nil_l. simpl. by rewrite Hc.
  - rewrite str_app_cons. simpl in *.
    apply andb_true_iff in Hw as [-> Hw]. by rewrite IH.
Qed.

Lemma split_from_words (s : string) :
  ∀ w, str_all (λ c, negb (isspace c)) w = true →
       Forall is_word (split_from w s).
Proof.
  induction s as [|c s IH]; intros w Hw; simpl.
  - destruct w; [constructor|]. repeat constructor.
    unfold is_word. by rewrite Hw.
  - destruct (isspace c) eqn:Hc.
    + destruct w; [by apply IH|].
      constructor; [unfold is_word; by rewrite Hw | by apply IH].
    + apply IH. by apply not_whitespace_app.
Qed.

Lemma sorted_perm (l : list string) : sorted l ≡ₚ l.
Proof. apply merge_sort_Permutation. Qed.

Lemma table_stem_word (w : string) : is_word w → is_word (table_stem w).
Proof. unfold table_stem. by repeat case_decide. Qed.

Lemma table_stem_token (w : string) : is_token w → is_token (table_stem w).
Proof. unfold table_stem. by repeat case_decide. Qed.

(** X5: the [key] column does not need the [strip] of line 30: [split]
    drops the whitespace at both ends anyway, so the words and the key of
    a text are those of the text taken without stripping, and stripping a
    text beforehand changes neither. *)
Theorem strip_is_redundant (stem : string -> string) (raw : string) :
  words raw
  = split (translate (maketrans punctuation) (replace hyphen "" (lower raw)))
  ∧ words (strip raw) = words raw
  ∧ key_of stem (strip raw) = key_of stem raw.
Proof.
  assert (words (strip raw) = words raw) as H.
  { rewrite (words_squash (strip raw)). done. }
  split_and!; [apply words_squash | done | unfold key_of; by rewrite H].
Qed.

(** X6: two texts that are equal once lowercased have the same words
    and the same key. *)
Theorem key_ignores_case (stem : string -> string) (raw1 raw2 : string) :
  lower raw1 = lower raw2 →
  words raw1 = words raw2 ∧ key_of stem raw1 = key_of stem raw2.
Proof.
  intros H.
  assert (words raw1 = words raw2) as Hw by by rewrite !words_squash, H.
  split; [done|]. unfold key_of. by rewrite Hw.
Qed.

Lemma key_ignores_case_witness :
  key_of table_stem "Hello World" = key_of table_stem "hELLO wORLD".
Proof.
  apply (key_ignores_case table_stem "Hello World" "hELLO wORLD").
  reflexivity.
Defined.

(** X7: a whitespace character between two texts puts their word lists
    one after the other; so the key does not depend on the order of the
    two texts, and a text written twice has the key of the text. *)
Theorem whitespace_separates_words
    (stem : string -> string) (c : ascii) (a b : string) :
  isspace c = true →
  words (a +:+ String c b) = words a ++ words b
  ∧ key_of stem (a +:+ String c b) = key_of stem (b +:+ String c a)
  ∧ key_of stem (a +:+ String c a) = key_of stem a.
Proof.
  intros Hc.
  assert (∀ x y, words (x +:+ String c y) = words x ++ words y) as H.
  { intros x y. rewrite !words_squash.
    rewrite (str_app_single c y), !lower_app, !replace_app, !translate_app.
    rewrite (squash_space (String c "")) by (simpl; by rewrite Hc).
    rewrite <- str_app_single. unfold split. by apply split_from_sep. }
  split_and!.
  - apply H.
  - unfold key_of, key_of_tokens. rewrite !H, !fmap_app.
    do 3 f_equal. unfold set_of. set_solver.
  - unfold key_of, key_of_tokens. rewrite !H, !fmap_app.
    do 3 f_equal. unfold set_of. set_solver.
Qed.

Lemma whitespace_separates_words_witness :
  words ("Running fast" +:+ String " " "runner")
  = words "Running fast" ++ words "runner".
Proof.
  apply (whitespace_separates_words table_stem " " "Running fast" "runner").
  reflexivity.
Defined.



(** X9: with a stemmer that turns words into words, [split] gives back
    from a key the stems it was joined from: they are the stems of the
    words of the text, each once, in ascending order. *)
Theorem key_splits_into_sorted_stems (stem : string -> string) (raw : string) :
  (∀ w, is_word w → is_word (stem w)) →
  split (key_of stem raw) = sorted (elements (set_of (stem <$> words raw)))
  ∧ NoDup (split (key_of stem raw))
  ∧ Sorted String.le (split (key_of stem raw))
  ∧ (∀ t, t ∈ split (key_of stem raw) ↔ t ∈ stem <$> words raw).
Proof.
  intros Hstem.
  assert (split (key_of stem raw)
          = sorted (elements (set_of (stem <$> words raw)))) as E.
  { unfold key_of, key_of_tokens. apply split_join_words.
    apply Forall_forall. intros t Ht.
    apply (proj1 (sorted_elements_elem_of _ _)) in Ht.
    apply list_elem_of_fmap in Ht as (w & -> & Hw). apply Hstem.
    revert w Hw. apply Forall_forall. unfold words, split.
    by apply split_from_words. }
  rewrite E. split_and!.
  - done.
  - rewrite sorted_perm. apply NoDup_elements.
  - apply (Sorted_merge_sort String.le).
  - intros t. apply sorted_elements_elem_of.
Qed.

Lemma key_splits_into_sorted_stems_witness :
  split (key_of table_stem "Running fast!")
  = sorted (elements (set_of (table_stem <$> words "Running fast!"))).
Proof.
  apply (key_splits_into_sorted_stems table_stem "Running fast!").
  exact table_stem_word.
Defined.

(** ** Rows added, rows compared *)

Lemma rep_app_l (K : string -> string) (l more : list string) (x : string) :
  x ∈ l → rep K (l ++ more) x = rep K l x.
Proof.
  intros Hx. destruct (rep_elem_of K l x Hx) as [y Hy].
  unfold rep in *. destruct (list_find _ l) as [[i z]|] eqn:E; [|done].
  by rewrite (list_find_app_l _ _ _ _ _ E).
Qed.

Lemma cleaned_set_size_aux (K : string -> string) (l : list string) :
  size (list_to_set (rep_or_self K l <$> l) : gset string)
  = size (list_to_set (K <$> l) : gset string).
Proof.
  set (C := list_to_set (rep_or_self K l <$> l) : gset string).
  assert (list_to_set (K <$> elements C) = (list_to_set (K <$> l) : gset string)) as E.
  { apply set_eq. intros k. rewrite !elem_of_list_to_set, !list_elem_of_fmap.
    split.
    - intros (c & -> & Hc). apply elem_of_elements in Hc.
      unfold C in Hc. rewrite elem_of_list_to_set in Hc.
      apply list_elem_of_fmap in Hc as (x & -> & Hx).
      exists x. split; [apply rep_or_self_key | done].
    - intros (x & -> & Hx). exists (rep_or_self K l x).
      split; [by rewrite rep_or_self_key|].
      apply elem_of_elements. unfold C. rewrite elem_of_list_to_set.
      apply list_elem_of_fmap. eauto. }
  rewrite <- E, size_list_to_set.
  - rewrite length_fmap. done.
  - apply NoDup_fmap_2_strong; [|apply NoDup_elements].
    intros c1 c2 H1 H2 HK.
    apply elem_of_elements in H1, H2. unfold C in H1, H2.
    rewrite elem_of_list_to_set in H1, H2.
    apply list_elem_of_fmap in H1 as (x1 & -> & Hx1).
    apply list_elem_of_fmap in H2 as (x2 & -> & Hx2).
    rewrite !rep_or_self_key in HK.
    unfold rep_or_self. rewrite (rep_same_key K l x1 x2 HK).
    by destruct (rep_elem_of K l x2 Hx2) as [y ->].
Qed.

Lemma create_normalized_key_exc_fallback
    (stem : string -> option string) (df : list string) :
  (∀ raw w, raw ∈ df → w ∈ words raw → is_Some (stem w)) →
  create_normalized_key_exc stem df
  = Some (create_normalized_key (fallback stem) df).
Proof.
  intros Hok.
  unfold create_normalized_key_exc, create_normalized_key; cbv zeta.
  rewrite !words_column.
  rewrite (mapM_Some_2 _ _ ((λ x, fallback stem <$> x) <$> (words <$> df)));
    [done|].
  apply Forall2_fmap_r, Forall_Forall2_diag, Forall_forall.
  intros x (raw & -> & Hraw)%list_elem_of_fmap. apply mapM_Some_2.
  apply Forall2_fmap_r, Forall_Forall2_diag, Forall_forall.
  intros w Hw. destruct (Hok raw w Hraw Hw) as [s Hs].
  unfold compose, fallback. by rewrite Hs.
Qed.

(** X10: rows added at the end of the frame leave the [cleaned_text] of
    the rows before them as it was. *)
Theorem appended_rows_change_nothing
    (stem : string -> string) (df more : list string) :
  take (length df) (cleaned stem (df ++ more)) = cleaned stem df.
Proof.
  rewrite !cleaned_rep, fmap_app, take_app_length' by by rewrite length_fmap.
  apply list_fmap_ext. intros i x Hx. apply rep_app_l.
  by eapply list_elem_of_lookup_2.
Qed.

(** X11: two rows of the frame end with the same [cleaned_text] exactly
    when they have the same key: no two clusters share a text. *)
Theorem same_cleaned_text_iff_same_key
    (stem : string -> string) (df : list string) (i j : nat) (x y : string) :
  df !! i = Some x → df !! j = Some y →
  cleaned stem df !! i = cleaned stem df !! j
  ↔ key_of stem x = key_of stem y.
Proof.
  intros Hi Hj. rewrite cleaned_rep, !list_lookup_fmap, Hi, Hj. simpl.
  split.
  - intros [= E].
    destruct (rep_elem_of (key_of stem) df x) as [z Hz];
      [by eapply list_elem_of_lookup_2|].
    rewrite <- (rep_key _ _ _ _ Hz). rewrite E in Hz.
    by rewrite (rep_key _ _ _ _ Hz).
  - intros E. f_equal. by apply rep_same_key.
Qed.

Lemma same_cleaned_text_iff_same_key_witness :
  cleaned table_stem ["b a"; "x"; "a b"] !! 0
  = cleaned table_stem ["b a"; "x"; "a b"] !! 2
  ↔ key_of table_stem "b a" = key_of table_stem "a b".
Proof.
  apply (same_cleaned_text_iff_same_key table_stem ["b a"; "x"; "a b"] 0 2).
  - reflexivity.
  - reflexivity.
Defined.

(** X12: the [cleaned_text] of a row is the [raw_text] of a row of the
    frame that has the same key and stands at the same place or before
    it, and that row has its own text as [cleaned_text]. *)
Theorem cleaned_text_is_earlier_row_of_same_key
    (stem : string -> string) (df : list string) (i : nat) (x : string) :
  df !! i = Some x →
  ∃ j y, j ≤ i ∧ df !! j = Some y ∧ key_of stem y = key_of stem x
         ∧ cleaned stem df !! i = Some (Some y)
         ∧ cleaned stem df !! j = Some (Some y).
Proof.
  intros Hi.
  assert (x ∈ df) as Hx by by eapply list_elem_of_lookup_2.
  destruct (rep_elem_of (key_of stem) df x Hx) as [y Hy].
  pose proof Hy as Hy'. unfold rep in Hy'.
  destruct (list_find _ df) as [[j z]|] eqn:E; simplify_eq/=.
  apply list_find_Some in E as (Hj & Hk & Hmin).
  exists j, y. rewrite cleaned_rep, !list_lookup_fmap, Hi, Hj. simpl.
  split_and!; [|done..| |].
  - destruct (decide (j ≤ i)) as [|Hn]; [done|].
    destruct (Hmin i x Hi); [lia|done].
  - by rewrite Hy.
  - f_equal. by eapply rep_rep.
Qed.

Lemma cleaned_text_is_earlier_row_of_same_key_witness :
  ∃ j y, j ≤ 2 ∧ ["b a"; "x"; "a b"] !! j = Some y
         ∧ key_of table_stem y = key_of table_stem "a b"
         ∧ cleaned table_stem ["b a"; "x"; "a b"] !! 2 = Some (Some y)
         ∧ cleaned table_stem ["b a"; "x"; "a b"] !! j = Some (Some y).
Proof.
  apply (cleaned_text_is_earlier_row_of_same_key
           table_stem ["b a"; "x"; "a b"] 2 "a b").
  reflexivity.
Defined.

(** X13: the [cleaned_text] column holds as many distinct texts as the
    [key] column holds distinct keys. *)
Theorem as_many_cleaned_texts_as_keys
    (stem : string -> string) (df : list string) :
  size (list_to_set (cleaned stem df) : gset (option string))
  = size (list_to_set (key <$> create_normalized_key stem df) : gset string).
Proof.
  rewrite create_normalized_key_key, <- cleaned_set_size_aux.
  assert (cleaned stem df = Some <$> (rep_or_self (key_of stem) df <$> df)) as ->.
  { rewrite cleaned_rep, <- list_fmap_compose. apply list_fmap_ext.
    intros i x Hx. simpl. unfold rep_or_self.
    destruct (rep_elem_of (key_of stem) df x) as [y Hy];
      [by eapply list_elem_of_lookup_2|].
    by rewrite Hy. }
  generalize (rep_or_self (key_of stem) df <$> df). intros l.
  assert ((list_to_set l : gset string) = list_to_set (remove_dups l)) as ->.
  { apply set_eq. intros o. rewrite !elem_of_list_to_set.
    by rewrite elem_of_remove_dups. }
  assert ((list_to_set (Some <$> l) : gset (option string))
          = list_to_set (Some <$> remove_dups l)) as ->.
  { apply set_eq. intros o. rewrite !elem_of_list_to_set, !list_elem_of_fmap.
    by setoid_rewrite elem_of_remove_dups. }
  rewrite !size_list_to_set.
  - by rewrite length_fmap.
  - apply NoDup_remove_dups.
  - apply NoDup_fmap_2; [apply _|apply NoDup_remove_dups].
Qed.

(** X14: [create_normalized_key] needs the stemmer only on the words of
    the frame: when the stemmer returns on each of them, the function
    returns, with the keys of these stems, whatever the stemmer does on
    other words. *)
Theorem stemmer_needed_only_on_words
    (stem : string -> option string) (df : list string) :
  (∀ raw w, raw ∈ df → w ∈ words raw → is_Some (stem w)) →
  create_normalized_key_exc stem df
  = Some (create_normalized_key (fallback stem) df).
Proof. apply create_normalized_key_exc_fallback. Qed.

Lemma stemmer_needed_only_on_words_witness :
  create_normalized_key_exc stem_raising_on_b ["a"; "c d"]
  = Some (create_normalized_key (fallback stem_raising_on_b) ["a"; "c d"]).
Proof.
  apply (stemmer_needed_only_on_words stem_raising_on_b ["a"; "c d"]).
  intros raw w Hraw Hw.
  apply elem_of_cons in Hraw as [->|Hraw].
  - apply elem_of_cons in Hw as [->|Hw]; [by eexists|].
    by apply elem_of_nil in Hw.
  - apply elem_of_cons in Hraw as [->|Hraw]; [|by apply elem_of_nil in Hraw].
    apply elem_of_cons in Hw as [->|Hw]; [by eexists|].
    apply elem_of_cons in Hw as [->|Hw]; [by eexists|].
    by apply elem_of_nil in Hw.
Defined.

(** X15: on a frame whose texts are all made of whitespace, hyphens and
    punctuation the stemmer is never called: [create_normalized_key]
    returns, every row with the key [""], even with a stemmer that
    raises on every word. *)
Theorem marks_only_frame_never_raises
    (stem : string -> option string) (df : list string) :
  Forall (λ raw, only_marks raw = true) df →
  create_normalized_key_exc stem df
  = Some ((λ raw, mkKeyRow raw "") <$> df).
Proof.
  intros Hdf. rewrite Forall_forall in Hdf.
  rewrite create_normalized_key_exc_fallback.
  - f_equal. rewrite create_normalized_key_rows. apply list_fmap_ext.
    intros i raw Hraw. f_equal. unfold key_of.
    rewrite words_only_marks; [done|].
    apply Hdf. by eapply list_elem_of_lookup_2.
  - intros raw w Hraw Hw. rewrite words_only_marks in Hw by by apply Hdf.
    by apply elem_of_nil in Hw.
Qed.

Lemma marks_only_frame_never_raises_witness :
  create_normalized_key_exc (λ _, None) ["?!"; " - "; ""]
  = Some [mkKeyRow "?!" ""; mkKeyRow " - " ""; mkKeyRow "" ""].
Proof.
  apply (marks_only_frame_never_raises (λ _, None) ["?!"; " - "; ""]).
  repeat constructor.
Defined.

(** X16: for a stemmer that turns tokens into tokens, two texts have the
    same key exactly when the sets of their stemmed words are equal. *)
Theorem key_of_eq_iff (stem : string -> string) (raw1 raw2 : string) :
  (∀ w, is_token w → is_token (stem w)) →
  key_of stem raw1 = key_of stem raw2
  ↔ set_of (stem <$> words raw1) = set_of (stem <$> words raw2).
Proof.
  intros Hstem. unfold key_of. split.
  - apply key_of_tokens_inj; apply Forall_fmap;
      (eapply Forall_impl; [by apply (split_from_tokens _ "")|]); done.
  - unfold key_of_tokens. by intros ->.
Qed.

Lemma key_of_eq_iff_witness :
  key_of table_stem "Running fast!" = key_of table_stem "fast, RUNNING"
  ↔ set_of (table_stem <$> words "Running fast!")
    = set_of (table_stem <$> words "fast, RUNNING").
Proof.
  apply (key_of_eq_iff table_stem "Running fast!" "fast, RUNNING").
  exact table_stem_token.
Defined.
